(** * Transcendental Transcriber: the transcript normalisation pipeline

    A shallow embedding of [filter_duplicates] and
    [format_diarized_transcription] of [src/trans_transcriber.py], and the
    properties of the two that the specification states.

    Conventions of the embedding:
    - a Python [str] is a [string]; its characters are read as code points
      below 256;
    - a Python [float] is a primitive binary64 [float], with the IEEE 754
      subtraction, absolute value and comparison that CPython uses;
    - the recogniser's objects are records whose attributes may be absent
      ([None] in the field), since the source reads them with plain
      attribute access (which raises [AttributeError]) or with [getattr]
      and a default;
    - a speaker that is present is either a label or Python's [None]: the
      value is an [option string], and [current_speaker], which starts as
      [None], is compared with it by [==];
    - the [seen_texts] sets are [gset string]; the lists and the dicts
      appended to them are lists of records;
    - a call either returns a value or raises: the [result] monad. *)

From Stdlib Require Import Floats.
From stdpp Require Import gmap strings list.

Local Open Scope string_scope.
Local Open Scope list_scope.
Local Open Scope nat_scope.
Local Open Scope stdpp_scope.

(** ** Exceptions and results *)

(** [AttributeError] is what a failed attribute lookup raises; it carries the
    attribute's name. [MalformedInputError] is the error kind the
    specification names. The source defines no such class and no function
    below builds it; it is part of the type so that statements can tell the
    two apart. *)
Inductive exn : Type :=
  | AttributeError (attr : string)
  | MalformedInputError (msg : string).

Inductive result (A : Type) : Type :=
  | Ok (a : A)
  | Raise (e : exn).
Arguments Ok {A} a.
Arguments Raise {A} e.

#[global] Instance result_ret : MRet result := fun _ a => Ok a.
#[global] Instance result_bind : MBind result := fun _ _ k m =>
  match m with
  | Ok a => k a
  | Raise e => Raise e
  end.

(** [obj.name] on an object whose attribute may be absent. *)
Definition getattr {A : Type} (name : string) (field : option A) : result A :=
  match field with
  | Some a => Ok a
  | None => Raise (AttributeError name)
  end.

(** [getattr(obj, name, dflt)]. *)
Definition getattr_default {A : Type} (field : option A) (dflt : A) : A :=
  match field with
  | Some a => a
  | None => dflt
  end.

(** ** Strings: [str.strip] and [str.join] *)

Definition newline : string := String (Ascii.ascii_of_nat 10) "".

(** [str.isspace] on one character, for code points below 256: TAB, LF, VT,
    FF, CR, the four separators FS GS RS US, SPACE, NEL and NBSP. *)
Definition isspace (c : Ascii.ascii) : bool :=
  let n := Ascii.nat_of_ascii c in
  (((9 <=? n) && (n <=? 13)) || ((28 <=? n) && (n <=? 32))
   || (n =? 133) || (n =? 160))%nat.

Fixpoint lstrip (s : string) : string :=
  match s with
  | "" => ""
  | String c s' => if isspace c then lstrip s' else s
  end.

Fixpoint rstrip (s : string) : string :=
  match s with
  | "" => ""
  | String c s' =>
      match rstrip s' with
      | "" => if isspace c then "" else String c ""
      | r => String c r
      end
  end.

(** [s.strip()] *)
Definition strip (s : string) : string := rstrip (lstrip s).

(** [sep.join(l)] *)
Fixpoint join (sep : string) (l : list string) : string :=
  match l with
  | [] => ""
  | [x] => x
  | x :: l' => x +:+ sep +:+ join sep l'
  end.

(** ** The recogniser's records *)

Module Utterance.
Record t : Type := mk {
  transcript : option string;
  start : option float;
  end_ : option float;
  speaker : option (option string)
}.
End Utterance.

Module Word.
Record t : Type := mk {
  punctuated_word : option string
}.
End Word.

(** The dict that [filter_duplicates] appends to [filtered]: its four keys.
    The value under ["speaker"] is whatever [getattr] returned: a label, or
    [None] when the attribute is present with the value [None]. *)
Record entry : Type := mk_entry {
  start_time : float;
  end_time : float;
  speaker : option string;
  text : string
}.

(** ** [filter_duplicates] *)

(** [filtered and abs(start_time - filtered[-1]["end_time"]) < 0.5] *)
Definition overlaps (filtered : list entry) (start_time : float) : bool :=
  match last filtered with
  | Some prev =>
      PrimFloat.ltb (PrimFloat.abs (PrimFloat.sub start_time (end_time prev)))
                    0.5%float
  | None => false
  end.

(** One iteration of the [for utterance in utterances] loop, on the two
    locals [filtered] and [seen_texts]. *)
Definition filter_step (st : list entry * gset string) (utterance : Utterance.t)
  : result (list entry * gset string) :=
  let '(filtered, seen_texts) := st in
  transcript ← getattr "transcript" (Utterance.transcript utterance);
  let text := strip transcript in
  start_time ← getattr "start" (Utterance.start utterance);
  end_time ← getattr "end" (Utterance.end_ utterance);
  if bool_decide (text ∈ seen_texts) then mret (filtered, seen_texts)
  else if overlaps filtered start_time then mret (filtered, seen_texts)
  else
    mret (filtered ++
            [ {| start_time := start_time;
                 end_time := end_time;
                 speaker := getattr_default (Utterance.speaker utterance)
                                            (Some "Unknown Speaker");
                 text := text |} ],
          seen_texts ∪ {[ text ]}).

Fixpoint filter_loop (st : list entry * gset string) (utterances : list Utterance.t)
  : result (list entry * gset string) :=
  match utterances with
  | [] => mret st
  | utterance :: rest => st' ← filter_step st utterance; filter_loop st' rest
  end.

Definition filter_duplicates (utterances : list Utterance.t) : result (list entry) :=
  st ← filter_loop ([], ∅) utterances;
  mret st.1.

(** ** [format_diarized_transcription] *)

(** [f"{current_speaker}: {' '.join(current_text)}"] *)
Definition render_block (current_speaker : string) (current_text : list string)
  : string :=
  current_speaker +:+ ": " +:+ join " " current_text.

(** The three locals of the primary path. *)
Record group_state : Type := mk_group {
  speaker_transcriptions : list string;
  current_speaker : option string;
  current_text : list string
}.

(** The flush that both the loop body and the code after the loop perform:
    [if current_speaker is not None: speaker_transcriptions.append(...)]. *)
Definition flush (g : group_state) : list string :=
  match current_speaker g with
  | Some cs => speaker_transcriptions g ++ [render_block cs (current_text g)]
  | None => speaker_transcriptions g
  end.

(** One iteration of [for utterance in filtered_utterances]. *)
Definition group_step (g : group_state) (utterance : entry) : group_state :=
  if bool_decide (speaker utterance = current_speaker g) then
    {| speaker_transcriptions := speaker_transcriptions g;
       current_speaker := current_speaker g;
       current_text := current_text g ++ [text utterance] |}
  else
    {| speaker_transcriptions := flush g;
       current_speaker := speaker utterance;
       current_text := [text utterance] |}.

Definition group_init : group_state :=
  {| speaker_transcriptions := []; current_speaker := None; current_text := [] |}.

(** The primary path after deduplication: the loop, then the last flush. *)
Definition group_blocks (filtered_utterances : list entry) : list string :=
  flush (foldl group_step group_init filtered_utterances).

(** [f"Unknown Speaker: {text}"] *)
Definition render_word (text : string) : string := "Unknown Speaker: " +:+ text.

(** One iteration of [for word in words], on [speaker_transcriptions] and the
    fallback path's own [seen_texts]. *)
Definition word_step (st : list string * gset string) (word : Word.t)
  : result (list string * gset string) :=
  let '(speaker_transcriptions, seen_texts) := st in
  punctuated_word ← getattr "punctuated_word" (Word.punctuated_word word);
  let text := strip punctuated_word in
  if bool_decide (text ∈ seen_texts) then mret (speaker_transcriptions, seen_texts)
  else mret (speaker_transcriptions ++ [render_word text],
             seen_texts ∪ {[ text ]}).

Fixpoint word_loop (st : list string * gset string) (words : list Word.t)
  : result (list string * gset string) :=
  match words with
  | [] => mret st
  | word :: rest => st' ← word_step st word; word_loop st' rest
  end.

(** Truth value of an optional list argument: [None] and [[]] are false. *)
Definition truthy {A : Type} (arg : option (list A)) : option (list A) :=
  match arg with
  | Some (x :: l) => Some (x :: l)
  | _ => None
  end.

Definition format_diarized_transcription
    (utterances : option (list Utterance.t)) (words : option (list Word.t))
  : result string :=
  match truthy utterances with
  | Some utterances =>
      filtered_utterances ← filter_duplicates utterances;
      mret (join (newline +:+ newline) (group_blocks filtered_utterances))
  | None =>
      match truthy words with
      | Some words =>
          st ← word_loop ([], ∅) words;
          mret (join (newline +:+ newline) st.1)
      | None => mret (join (newline +:+ newline) [])
      end
  end.

(** ** Reading one utterance *)

(** The dict that lines 42-47 build from one utterance, as a function of the
    utterance alone: the three attribute reads of lines 31-33 in their order,
    the trimmed text and the defaulted speaker. Used to say where an entry of
    the output comes from. *)
Definition entry_of (utterance : Utterance.t) : result entry :=
  transcript ← getattr "transcript" (Utterance.transcript utterance);
  start_time ← getattr "start" (Utterance.start utterance);
  end_time ← getattr "end" (Utterance.end_ utterance);
  mret {| start_time := start_time;
          end_time := end_time;
          speaker := getattr_default (Utterance.speaker utterance)
                                     (Some "Unknown Speaker");
          text := strip transcript |}.

(** The attributes that [filter_duplicates] reads without a default. *)
Definition required_attrs : list string := ["transcript"; "start"; "end"].

(** ** Deduplication, as the specification words it *)

(** Exact-text deduplication in the specification's words: every text stays
    at its first occurrence and its later copies are dropped. *)
Fixpoint first_occurrences (texts : list string) : list string :=
  match texts with
  | [] => []
  | t :: rest => t :: filter (λ t', t' ≠ t) (first_occurrences rest)
  end.

(** ** The caller: what [main] hands to [save_to_word_file] *)

(** [alternatives[0]] of the response: [main] reads its [transcript] with a
    plain attribute access and its [words] with a default. *)
Module Alternative.
Record t : Type := mk {
  transcript : option string;
  words : option (list Word.t)
}.
End Alternative.

(** The character ['.']. *)
Definition dot : Ascii.ascii := Ascii.ascii_of_nat 46.

(** [name.split('.')[0]]: the part of the name before its first dot. *)
Fixpoint before_first_dot (name : string) : string :=
  match name with
  | "" => ""
  | String c rest =>
      if Ascii.eqb c dot then "" else String c (before_first_dot rest)
  end.

(** Lines 147-161 of [main], from the response to the call of
    [save_to_word_file]: the two arguments of that call, the text first.
    [results_utterances] is the [utterances] attribute of [response.results],
    read with [getattr] and the default [[]]; [uploaded_name] is
    [uploaded_file.name]. The upload, the request and the widgets around
    these lines are not modelled. *)
Definition main_document (uploaded_name : string)
    (results_utterances : option (list Utterance.t))
    (alternative : Alternative.t) : result (string * string) :=
  transcript ← getattr "transcript" (Alternative.transcript alternative);
  let utterances := getattr_default results_utterances [] in
  let words := getattr_default (Alternative.words alternative) [] in
  formatted_transcription ←
    match utterances, words with
    | _ :: _, _ => format_diarized_transcription (Some utterances) None
    | [], _ :: _ => format_diarized_transcription None (Some words)
    | [], [] => mret transcript
    end;
  let output_filename :=
    before_first_dot uploaded_name +:+ "_transcription.docx" in
  mret (formatted_transcription, output_filename).

(** ** Predicates used in the statements *)

(** The comparison of line 38 on one start time and one end time. *)
Definition near (start_time end_time : float) : bool :=
  PrimFloat.ltb (PrimFloat.abs (PrimFloat.sub start_time end_time)) 0.5%float.

(** No entry starts within half a second of the end of the entry just
    before it. *)
Definition separated (l : list entry) : Prop :=
  ∀ l1 a b l2, l = l1 ++ a :: b :: l2 →
    near (start_time b) (end_time a) = false.

(** No entry starts within half a second of the end of any earlier entry. *)
Fixpoint pairwise_far (l : list entry) : Prop :=
  match l with
  | [] => True
  | a :: rest =>
      Forall (λ b, near (start_time b) (end_time a) = false) rest ∧
      pairwise_far rest
  end.

(** The utterance has the three attributes that are read without a
    default. *)
Definition readable (u : Utterance.t) : Prop :=
  is_Some (Utterance.transcript u) ∧ is_Some (Utterance.start u) ∧
  is_Some (Utterance.end_ u).

(** The first attribute that an utterance lacks, in the order in which lines
    31-33 read them: [transcript], then [start], then [end]. *)
Definition first_missing (u : Utterance.t) : string :=
  match Utterance.transcript u, Utterance.start u with
  | None, _ => "transcript"
  | Some _, None => "start"
  | Some _, Some _ => "end"
  end.

(** ** Sample inputs *)

Definition utt (t : string) (s e : float) (sp : string) : Utterance.t :=
  Utterance.mk (Some t) (Some s) (Some e) (Some (Some sp)).

Definition wd (t : string) : Word.t := Word.mk (Some t).

(** An utterance whose [speaker] attribute is present with the value
    [None]. *)
Definition unlabelled (t : string) (s e : float) : Utterance.t :=
  Utterance.mk (Some t) (Some s) (Some e) (Some None).

(** Two utterances with the same text, the first of them starting a quarter
    of a second after the previous utterance ends. *)
Definition repeated_after_overlap : list Utterance.t :=
  [utt "intro" 0 1 "S1"; utt "hello" 1.25 2 "S2"; utt "hello" 3 4 "S2"].

(** Utterances that lack a timestamp attribute. *)
Definition no_start : Utterance.t :=
  Utterance.mk (Some "hello") None (Some 1%float) (Some (Some "S1")).
Definition no_end : Utterance.t :=
  Utterance.mk (Some "hello") (Some 2%float) None (Some (Some "S1")).

(** * Properties

    ** Running the model on small inputs *)

Example strip_ex : strip "  hello world  " = "hello world".
Proof. reflexivity. Qed.

Example format_ex :
  format_diarized_transcription
    (Some [utt "a" 0 1 "S1"; utt " b" 2 3 "S1"; utt "c" 4 5 "S2"; utt "d" 6 7 "S1"])
    None
  = Ok ("S1: a b" +:+ newline +:+ newline +:+ "S2: c" +:+ newline +:+ newline
        +:+ "S1: d").
Proof. vm_compute. reflexivity. Qed.

Example fallback_ex :
  format_diarized_transcription None (Some [wd "w1"; wd "w1 "; wd "w2"])
  = Ok ("Unknown Speaker: w1" +:+ newline +:+ newline +:+ "Unknown Speaker: w2").
Proof. vm_compute. reflexivity. Qed.

(** ** Facts about the [result] monad *)

Lemma bind_Ok {A B} (m : result A) (k : A → result B) b :
  m ≫= k = Ok b ↔ ∃ a, m = Ok a ∧ k a = Ok b.
Proof.
  destruct m as [a|e]; simpl; split.
  - intros H. by exists a.
  - by intros (a' & [= ->] & H).
  - done.
  - by intros (a' & [=] & _).
Qed.

Lemma bind_Raise {A B} (m : result A) (k : A → result B) e :
  m = Raise e → m ≫= k = Raise e.
Proof. by intros ->. Qed.

(** ** The loop of [filter_duplicates] *)

Lemma entry_of_Ok utterance e :
  entry_of utterance = Ok e ↔
  ∃ tr s f,
    Utterance.transcript utterance = Some tr ∧
    Utterance.start utterance = Some s ∧
    Utterance.end_ utterance = Some f ∧
    e = {| start_time := s; end_time := f;
           speaker := getattr_default (Utterance.speaker utterance)
                                      (Some "Unknown Speaker");
           text := strip tr |}.
Proof.
  unfold entry_of. destruct utterance as [[tr|] [s|] [f|] sp]; simpl; split;
    try done; try (by intros (? & ? & ? & ? & ? & ? & ?)).
  - intros [= <-]. by exists tr, s, f.
  - by intros (? & ? & ? & [= <-] & [= <-] & [= <-] & ->).
Qed.

Lemma entry_of_Raise utterance e :
  entry_of utterance = Raise e →
  ∃ attr, e = AttributeError attr ∧ attr ∈ required_attrs.
Proof.
  unfold entry_of, required_attrs.
  destruct utterance as [[tr|] [s|] [f|] sp]; simpl; intros [= <-];
    eexists; (split; [reflexivity | set_solver]).
Qed.

(** What one iteration does, in terms of [entry_of]: it raises exactly when
    the attribute reads do, and otherwise either leaves both locals alone or
    appends the entry and records its text. *)
Lemma filter_step_unfold filtered seen_texts utterance :
  filter_step (filtered, seen_texts) utterance =
  e ← entry_of utterance;
  if bool_decide (text e ∈ seen_texts) then mret (filtered, seen_texts)
  else if overlaps filtered (start_time e) then mret (filtered, seen_texts)
  else mret (filtered ++ [e], seen_texts ∪ {[ text e ]}).
Proof.
  unfold filter_step, entry_of.
  by destruct utterance as [[tr|] [s|] [f|] sp].
Qed.

Lemma filter_step_Raise st utterance e :
  entry_of utterance = Raise e → filter_step st utterance = Raise e.
Proof.
  destruct st as [filtered seen_texts]. rewrite filter_step_unfold.
  by intros ->.
Qed.

Lemma filter_step_Ok filtered seen_texts utterance st' :
  filter_step (filtered, seen_texts) utterance = Ok st' →
  ∃ e, entry_of utterance = Ok e ∧
    (st' = (filtered, seen_texts) ∨
     (st' = (filtered ++ [e], seen_texts ∪ {[ text e ]}) ∧
      (text e ∉ seen_texts) ∧ overlaps filtered (start_time e) = false)).
Proof.
  rewrite filter_step_unfold. intros (e & He & Hk)%bind_Ok.
  exists e. split; [done|].
  case_bool_decide as Hseen; [left; by injection Hk|].
  destruct (overlaps filtered (start_time e)) eqn:Hov; [left; by injection Hk|].
  right. by injection Hk.
Qed.

Lemma filter_loop_app st l1 l2 :
  filter_loop st (l1 ++ l2) = (st' ← filter_loop st l1; filter_loop st' l2).
Proof.
  revert st. induction l1 as [|u l1 IH]; intros st; simpl; [done|].
  destruct (filter_step st u) as [st'|e]; simpl; [apply IH | done].
Qed.

(** The invariant of the loop: what has been appended comes, in order, from
    a subsequence of the utterances read; its texts are pairwise distinct and
    new to [seen_texts], which grows by exactly those texts. *)
Lemma filter_loop_inv utterances filtered seen_texts filtered' seen_texts' :
  filter_loop (filtered, seen_texts) utterances = Ok (filtered', seen_texts') →
  ∃ kept added,
    filtered' = filtered ++ added ∧
    kept `sublist_of` utterances ∧
    Forall2 (λ u e, entry_of u = Ok e) kept added ∧
    seen_texts' = seen_texts ∪ list_to_set (text <$> added) ∧
    NoDup (text <$> added) ∧
    (∀ t, t ∈ text <$> added → t ∉ seen_texts).
Proof.
  revert filtered seen_texts.
  induction utterances as [|u us IH]; intros filtered seen_texts; simpl.
  - intros [= <- <-]. exists [], []. rewrite app_nil_r. simpl.
    repeat split; [done|constructor|set_solver|constructor|set_solver].
  - intros ([f1 s1] & Hstep & Hloop)%bind_Ok.
    apply filter_step_Ok in Hstep as (e & He & [[= -> ->]|([= -> ->] & Hnew & _)]).
    + destruct (IH _ _ Hloop) as (kept & added & -> & Hsub & Hall & -> & Hnd & Hfresh).
      exists kept, added. repeat split; try done. by apply sublist_cons.
    + destruct (IH _ _ Hloop) as (kept & added & -> & Hsub & Hall & -> & Hnd & Hfresh).
      exists (u :: kept), (e :: added). rewrite <- app_assoc. simpl.
      repeat split.
      * by apply sublist_skip.
      * by constructor.
      * set_solver.
      * constructor; [|done]. intros Hin. apply (Hfresh _ Hin). set_solver.
      * intros t [->|Hin]%elem_of_cons; [done|].
        intros Hs. apply (Hfresh _ Hin). set_solver.
Qed.

(** The loop raises as soon as one utterance cannot be read, whatever the
    state it has reached. *)
Lemma filter_loop_Raise utterances st :
  (∃ u e, u ∈ utterances ∧ entry_of u = Raise e) →
  ∃ attr, attr ∈ required_attrs ∧
    filter_loop st utterances = Raise (AttributeError attr).
Proof.
  revert st. induction utterances as [|u us IH]; intros st (u' & e & Hin & He).
  - by apply elem_of_nil in Hin.
  - simpl. destruct (entry_of u) as [e0|e0] eqn:Hu.
    + destruct (filter_step st u) as [st'|e1] eqn:Hstep.
      * simpl. apply IH. exists u', e. split; [|done].
        apply elem_of_cons in Hin as [->|Hin]; [congruence|done].
      * destruct st as [f s]. rewrite filter_step_unfold, Hu in Hstep.
        simpl in Hstep. repeat case_match; discriminate.
    + rewrite (filter_step_Raise _ _ _ Hu). simpl.
      destruct (entry_of_Raise _ _ Hu) as (attr & -> & Hattr). by exists attr.
Qed.

(** Conversely the loop returns when every utterance can be read. *)
Lemma filter_loop_total utterances st :
  Forall (λ u, ∃ e, entry_of u = Ok e) utterances →
  ∃ st', filter_loop st utterances = Ok st'.
Proof.
  intros Hall. revert st. induction Hall as [|u us [e He] _ IH]; intros st.
  - by exists st.
  - simpl. destruct st as [f s]. rewrite filter_step_unfold, He. simpl.
    repeat case_match; simpl; apply IH.
Qed.

(** The first utterance is never rejected: nothing has been seen and nothing
    has been kept when it is examined. *)
Lemma filter_duplicates_cons utterance rest e :
  entry_of utterance = Ok e →
  filter_duplicates (utterance :: rest) =
  (st ← filter_loop ([e], {[ text e ]}) rest; mret st.1).
Proof.
  intros He. unfold filter_duplicates. cbn [filter_loop].
  rewrite filter_step_unfold, He. simpl.
  rewrite bool_decide_eq_false_2 by set_solver.
  by rewrite (left_id_L ∅ (∪)).
Qed.

Lemma filter_duplicates_nonempty utterance rest out :
  filter_duplicates (utterance :: rest) = Ok out → out ≠ [].
Proof.
  intros Hout. destruct (entry_of utterance) as [e|e] eqn:He.
  - rewrite (filter_duplicates_cons _ _ _ He) in Hout.
    apply bind_Ok in Hout as ([f s] & Hloop & [= <-]).
    apply filter_loop_inv in Hloop as (_ & added & -> & _). done.
  - unfold filter_duplicates in Hout. cbn [filter_loop] in Hout.
    by rewrite (filter_step_Raise _ _ _ He) in Hout.
Qed.

(** A subsequence as long as the whole sequence is the whole sequence. *)
Lemma sublist_full {A} (l1 l2 : list A) :
  l1 `sublist_of` l2 → length l2 ≤ length l1 → l1 = l2.
Proof.
  induction 1 as [|x l1 l2 Hsub IH|x l1 l2 Hsub IH]; simpl; intros Hlen.
  - done.
  - f_equal. apply IH. lia.
  - apply sublist_length in Hsub. lia.
Qed.

(** ** The fallback loop *)

Lemma first_occurrences_app l1 l2 :
  first_occurrences (l1 ++ l2) =
  first_occurrences l1 ++ filter (λ t, t ∉ l1) (first_occurrences l2).
Proof.
  induction l1 as [|x l1 IH]; simpl.
  - symmetry. induction (first_occurrences l2) as [|y l IHl]; [done|].
    rewrite filter_cons_True by set_solver. by f_equal.
  - f_equal. rewrite IH, filter_app. f_equal.
    rewrite list_filter_filter. apply list_filter_iff. set_solver.
Qed.

Lemma elem_of_first_occurrences t l : t ∈ first_occurrences l ↔ t ∈ l.
Proof.
  induction l as [|x l IH]; simpl; [done|].
  rewrite !elem_of_cons, list_elem_of_filter, IH.
  destruct (decide (t = x)); naive_solver.
Qed.

Lemma NoDup_first_occurrences l : NoDup (first_occurrences l).
Proof.
  induction l as [|x l IH]; simpl; constructor.
  - rewrite list_elem_of_filter. naive_solver.
  - by apply NoDup_filter.
Qed.

Lemma word_loop_cons_wd blocks seen_texts w rest :
  word_loop (blocks, seen_texts) (wd w :: rest) =
  if bool_decide (strip w ∈ seen_texts) then word_loop (blocks, seen_texts) rest
  else word_loop (blocks ++ [render_word (strip w)], seen_texts ∪ {[ strip w ]})
                 rest.
Proof. cbn [word_loop]. unfold word_step. simpl. by case_bool_decide. Qed.

(** The fallback loop over words that all carry a text: it appends one block
    per first occurrence of a trimmed text that was not seen before. *)
Lemma word_loop_wd texts blocks seen_texts :
  ∃ seen_texts',
    word_loop (blocks, seen_texts) (wd <$> texts) =
    Ok (blocks ++ (render_word <$>
                     filter (λ t, t ∉ seen_texts)
                            (first_occurrences (strip <$> texts))),
        seen_texts').
Proof.
  revert blocks seen_texts.
  induction texts as [|w texts IH]; intros blocks seen_texts.
  - exists seen_texts. simpl. by rewrite app_nil_r.
  - rewrite !fmap_cons, word_loop_cons_wd. cbn [first_occurrences].
    case_bool_decide as Hseen.
    + destruct (IH blocks seen_texts) as [s' ->]. exists s'.
      rewrite filter_cons_False by (intros H; by apply H).
      rewrite list_filter_filter.
      rewrite (list_filter_iff (λ t, (t ∉ seen_texts) ∧ t ≠ strip w)
                               (λ t, t ∉ seen_texts)); [done|].
      intros t. split; [naive_solver|].
      intros Ht. split; [done|]. by intros ->.
    + destruct (IH (blocks ++ [render_word (strip w)])
                   (seen_texts ∪ {[ strip w ]})) as [s' ->]. exists s'.
      rewrite filter_cons_True by done.
      rewrite <- app_assoc, list_filter_filter. simpl.
      rewrite (list_filter_iff (λ t, (t ∉ seen_texts) ∧ t ≠ strip w)
                               (λ t, t ∉ seen_texts ∪ {[ strip w ]}));
        [done | set_solver].
Qed.

(** ** Grouping and rendering *)

Lemma group_step_speaker g e : current_speaker (group_step g e) = speaker e.
Proof. unfold group_step. by case_bool_decide. Qed.

Lemma group_step_first blocks e :
  group_step (mk_group blocks None []) e = mk_group blocks (speaker e) [text e].
Proof. unfold group_step. simpl. case_bool_decide as H; [by rewrite H|done]. Qed.

Lemma group_step_same blocks cs texts e :
  speaker e = cs →
  group_step (mk_group blocks cs texts) e =
  mk_group blocks cs (texts ++ [text e]).
Proof. intros <-. unfold group_step. simpl. by rewrite bool_decide_eq_true_2. Qed.

Lemma group_step_change blocks cs texts e :
  speaker e ≠ cs →
  group_step (mk_group blocks cs texts) e =
  mk_group (flush (mk_group blocks cs texts)) (speaker e) [text e].
Proof.
  intros Hne. unfold group_step. simpl. by rewrite bool_decide_eq_false_2.
Qed.

Lemma group_step_other blocks cs texts e :
  speaker e ≠ Some cs →
  group_step (mk_group blocks (Some cs) texts) e =
  mk_group (blocks ++ [render_block cs texts]) (speaker e) [text e].
Proof. intros Hne. by rewrite group_step_change. Qed.

Lemma append_nil_inv (a b : string) : a +:+ b = "" → a = "" ∧ b = "".
Proof. by destruct a. Qed.

Lemma render_block_nonempty cs texts : render_block cs texts ≠ "".
Proof.
  unfold render_block. intros [_ H]%append_nil_inv. discriminate.
Qed.

Lemma join_nonempty sep l x : x ∈ l → x ≠ "" → join sep l ≠ "".
Proof.
  induction l as [|y l IH]; intros Hin Hx; [by apply elem_of_nil in Hin|].
  destruct l as [|z l]; simpl.
  - apply list_elem_of_singleton in Hin. by subst.
  - intros [-> [_ Hj]%append_nil_inv]%append_nil_inv.
    apply elem_of_cons in Hin as [->|Hin]; [done|].
    by apply IH.
Qed.

(** ** What [filter_duplicates] returns *)

Lemma filter_duplicates_inv utterances out :
  filter_duplicates utterances = Ok out →
  ∃ kept,
    kept `sublist_of` utterances ∧
    Forall2 (λ u e, entry_of u = Ok e) kept out ∧
    NoDup (text <$> out).
Proof.
  unfold filter_duplicates. intros ([f s] & Hloop & [= <-])%bind_Ok.
  apply filter_loop_inv in Hloop as (kept & added & -> & Hsub & Hall & _ & Hnd & _).
  by exists kept.
Qed.

Lemma filter_duplicates_Raise utterances u e :
  u ∈ utterances → entry_of u = Raise e →
  ∃ attr, attr ∈ required_attrs ∧
    filter_duplicates utterances = Raise (AttributeError attr).
Proof.
  intros Hin He. unfold filter_duplicates.
  destruct (filter_loop_Raise utterances ([], ∅)) as (attr & Hattr & ->);
    [by exists u, e|].
  by exists attr.
Qed.

(** [filter_duplicates] returns whenever every utterance has the three
    attributes it reads. *)
Lemma filter_duplicates_total utterances :
  Forall (λ u, ∃ e, entry_of u = Ok e) utterances →
  ∃ out, filter_duplicates utterances = Ok out.
Proof.
  intros Hall. unfold filter_duplicates.
  destruct (filter_loop_total utterances ([], ∅) Hall) as [[f s'] ->].
  by exists f.
Qed.

(** The primary path is the only one taken on a non-empty [utterances]. *)
Lemma format_utterances utterance rest words :
  format_diarized_transcription (Some (utterance :: rest)) words =
  (filtered_utterances ← filter_duplicates (utterance :: rest);
   mret (join (newline +:+ newline) (group_blocks filtered_utterances))).
Proof. done. Qed.

Lemma filter_unseen (seen_texts : gset string) (l : list string) :
  seen_texts = ∅ → filter (λ t, t ∉ seen_texts) l = l.
Proof.
  intros ->. induction l as [|x l IH]; [done|].
  rewrite filter_cons_True by set_solver. by rewrite IH.
Qed.

(** The fallback path on words that all carry a text. *)
Lemma format_words absent texts :
  truthy absent = None →
  format_diarized_transcription absent (Some (wd <$> texts)) =
  Ok (join (newline +:+ newline)
           (render_word <$> first_occurrences (strip <$> texts))).
Proof.
  intros Habs. unfold format_diarized_transcription. rewrite Habs.
  destruct texts as [|w texts]; [done|].
  change (truthy (Some (wd <$> w :: texts))) with (Some (wd <$> w :: texts)).
  destruct (word_loop_wd (w :: texts) [] ∅) as [s' ->].
  cbn [mbind result_bind mret result_ret fst app].
  by rewrite filter_unseen.
Qed.

Lemma readable_entry_of u : readable u ↔ ∃ e, entry_of u = Ok e.
Proof.
  unfold readable. split.
  - intros ([tr Htr] & [s Hs] & [f Hf]). eexists. apply entry_of_Ok.
    by exists tr, s, f.
  - intros [e (tr & s & f & -> & -> & -> & _)%entry_of_Ok]. by eauto.
Qed.

#[global] Instance readable_dec u : Decision (readable u).
Proof. unfold readable. apply _. Defined.

Lemma entry_of_unreadable u :
  ¬ readable u → entry_of u = Raise (AttributeError (first_missing u)).
Proof.
  unfold readable, entry_of, first_missing.
  destruct u as [[tr|] [s|] [f|] sp]; simpl; try done.
  intros []. by eauto.
Qed.

Lemma first_missing_required u : first_missing u ∈ required_attrs.
Proof.
  unfold first_missing, required_attrs.
  destruct (Utterance.transcript u), (Utterance.start u); set_solver.
Qed.

(** The first utterance of a list that cannot be read. *)
Lemma first_unreadable utterances u :
  u ∈ utterances → ¬ readable u →
  ∃ pre bad post,
    utterances = pre ++ bad :: post ∧ Forall readable pre ∧ ¬ readable bad.
Proof.
  induction utterances as [|u0 us IH]; intros Hin Hu; [by apply elem_of_nil in Hin|].
  destruct (decide (readable u0)) as [Hu0|Hu0].
  - apply elem_of_cons in Hin as [->|Hin]; [done|].
    destruct (IH Hin Hu) as (pre & bad & post & -> & Hpre & Hbad).
    exists (u0 :: pre), bad, post. split; [done|]. split; [by constructor|done].
  - exists [], u0, us. by split; [|split].
Qed.

(** The call raises at the first utterance that cannot be read, for the
    first attribute that this utterance lacks. *)
Lemma filter_duplicates_first_unreadable pre bad post :
  Forall readable pre → ¬ readable bad →
  filter_duplicates (pre ++ bad :: post)
  = Raise (AttributeError (first_missing bad)).
Proof.
  intros Hpre Hbad. unfold filter_duplicates. rewrite filter_loop_app.
  destruct (filter_loop_total pre ([], ∅)) as [st' ->].
  { eapply Forall_impl; [exact Hpre|]. intros u. by apply readable_entry_of. }
  cbn [mbind result_bind filter_loop].
  by rewrite (filter_step_Raise _ _ _ (entry_of_unreadable _ Hbad)).
Qed.

(** * The claims *)

(** C1, as stated, fails: of two utterances with the same trimmed text the
    later one is kept when the earlier one was rejected by the overlap rule,
    because a rejected text is not recorded in [seen_texts]. Here the first
    "hello" starts 0.25 s after the end of "intro" and is dropped; the second
    "hello" (3 s to 4 s) is the one in the output. *)
Lemma C1_later_occurrence_kept :
  repeated_after_overlap !! 1 = Some (utt "hello" 1.25 2 "S2") ∧
  repeated_after_overlap !! 2 = Some (utt "hello" 3 4 "S2") ∧
  entry_of (utt "hello" 3 4 "S2") = Ok (mk_entry 3 4 (Some "S2") "hello") ∧
  filter_duplicates repeated_after_overlap =
    Ok [mk_entry 0 1 (Some "S1") "intro"; mk_entry 3 4 (Some "S2") "hello"].
Proof. vm_compute. done. Qed.

(** C1, amended: the output is read off a subsequence of the input, each
    utterance giving at most one entry, and no two entries of the output
    have the same text. So of the utterances that share a trimmed text at
    most one is kept (not always the first). *)
Theorem C1_one_entry_per_text utterances out :
  filter_duplicates utterances = Ok out →
  NoDup (text <$> out) ∧
  ∃ kept,
    kept `sublist_of` utterances ∧
    Forall2 (λ u e, entry_of u = Ok e ∧
                    strip <$> Utterance.transcript u = Some (text e))
            kept out.
Proof.
  intros (kept & Hsub & Hall & Hnd)%filter_duplicates_inv.
  split; [done|]. exists kept. split; [done|].
  eapply Forall2_impl; [exact Hall|]. intros u e He. split; [done|].
  apply entry_of_Ok in He as (tr & s & f & -> & _ & _ & ->). done.
Qed.

Lemma C1_one_entry_per_text_witness :
  NoDup (text <$> [mk_entry 0 1 (Some "S1") "intro"; mk_entry 3 4 (Some "S2") "hello"]) ∧
  ∃ kept,
    kept `sublist_of` repeated_after_overlap ∧
    Forall2 (λ u e, entry_of u = Ok e ∧
                    strip <$> Utterance.transcript u = Some (text e))
            kept [mk_entry 0 1 (Some "S1") "intro"; mk_entry 3 4 (Some "S2") "hello"].
Proof.
  apply (C1_one_entry_per_text repeated_after_overlap).
  vm_compute. reflexivity.
Defined.

(** C2, as stated, fails: an utterance without a [start] attribute makes
    [filter_duplicates] raise Python's [AttributeError], and so does the
    formatter; no [MalformedInputError] is raised. *)
Lemma C2_attribute_error_not_malformed_input :
  filter_duplicates [no_start] = Raise (AttributeError "start") ∧
  format_diarized_transcription (Some [no_start]) None
    = Raise (AttributeError "start") ∧
  (∀ msg, filter_duplicates [no_start] ≠ Raise (MalformedInputError msg)).
Proof. split; [done|]. split; [done|]. intros msg. vm_compute. discriminate. Qed.

(** C2, amended: if some utterance of the input has no [start] or no [end]
    attribute, [filter_duplicates] raises [AttributeError]. The error comes
    from the first utterance of the input that lacks one of the attributes
    read without a default, and names the first attribute that this
    utterance lacks in the order of the reads: [transcript], [start], [end].
    [format_diarized_transcription] raises the same error whatever [words]
    is: the record is neither skipped nor coerced. *)
Theorem C2_missing_timestamp_raises utterances u :
  u ∈ utterances →
  Utterance.start u = None ∨ Utterance.end_ u = None →
  ∃ pre bad post,
    utterances = pre ++ bad :: post ∧
    Forall readable pre ∧ ¬ readable bad ∧
    first_missing bad ∈ required_attrs ∧
    filter_duplicates utterances = Raise (AttributeError (first_missing bad)) ∧
    ∀ words, format_diarized_transcription (Some utterances) words
             = Raise (AttributeError (first_missing bad)).
Proof.
  intros Hin Hmiss.
  assert (¬ readable u) as Hu.
  { unfold readable. intros (_ & [s Hs] & [f Hf]). destruct Hmiss; congruence. }
  destruct (first_unreadable _ _ Hin Hu) as (pre & bad & post & -> & Hpre & Hbad).
  exists pre, bad, post. split; [done|]. split; [done|]. split; [done|].
  split; [apply first_missing_required|].
  pose proof (filter_duplicates_first_unreadable pre bad post Hpre Hbad) as Hraise.
  split; [done|]. intros words.
  destruct (pre ++ bad :: post) as [|u0 us] eqn:Hus; [by destruct pre|].
  by rewrite format_utterances, Hraise.
Qed.

Lemma C2_missing_timestamp_raises_witness :
  ∃ pre bad post,
    [utt "intro" 0 1 "S1"; no_end; utt "bye" 5 6 "S1"] = pre ++ bad :: post ∧
    Forall readable pre ∧ ¬ readable bad ∧
    first_missing bad ∈ required_attrs ∧
    filter_duplicates [utt "intro" 0 1 "S1"; no_end; utt "bye" 5 6 "S1"]
      = Raise (AttributeError (first_missing bad)) ∧
    ∀ words,
      format_diarized_transcription
        (Some [utt "intro" 0 1 "S1"; no_end; utt "bye" 5 6 "S1"]) words
      = Raise (AttributeError (first_missing bad)).
Proof.
  apply (C2_missing_timestamp_raises _ no_end).
  - apply list_elem_of_In. simpl. right. left. reflexivity.
  - right. reflexivity.
Defined.

(** C3: when [A] is the last entry kept so far and the next candidate [B]
    has [abs(B.start - A.end_time) < 0.5], [B] leaves no trace: the result is
    the one obtained without [B], whatever [B]'s text is and whether [B]
    starts after or before [A] ends. The same [B] examined while nothing has
    been kept is not subject to the check: it is appended as soon as its text
    is new. *)
Theorem C3_overlap_rejects pre filtered seen_texts A B rest tr s f :
  filter_loop ([], ∅) pre = Ok (filtered, seen_texts) →
  last filtered = Some A →
  Utterance.transcript B = Some tr →
  Utterance.start B = Some s →
  Utterance.end_ B = Some f →
  PrimFloat.ltb (PrimFloat.abs (PrimFloat.sub s (end_time A))) 0.5 = true →
  filter_step (filtered, seen_texts) B = Ok (filtered, seen_texts) ∧
  filter_duplicates (pre ++ B :: rest) = filter_duplicates (pre ++ rest) ∧
  (∀ seen, strip tr ∉ seen →
     filter_step ([], seen) B =
     Ok ([ {| start_time := s; end_time := f;
              speaker := getattr_default (Utterance.speaker B) (Some "Unknown Speaker");
              text := strip tr |} ],
         seen ∪ {[ strip tr ]})).
Proof.
  intros Hpre Hlast Htr Hs Hf Hnear.
  assert (entry_of B =
          Ok {| start_time := s; end_time := f;
                speaker := getattr_default (Utterance.speaker B) (Some "Unknown Speaker");
                text := strip tr |}) as He.
  { apply entry_of_Ok. by exists tr, s, f. }
  assert (filter_step (filtered, seen_texts) B = Ok (filtered, seen_texts)) as Hstep.
  { rewrite filter_step_unfold, He. simpl.
    case_bool_decide; [done|].
    unfold overlaps. by rewrite Hlast, Hnear. }
  split; [done|]. split.
  - unfold filter_duplicates. rewrite !filter_loop_app, Hpre.
    cbn [mbind result_bind filter_loop]. by rewrite Hstep.
  - intros seen Hnew. rewrite filter_step_unfold, He. simpl.
    by rewrite bool_decide_eq_false_2.
Qed.

Lemma C3_overlap_rejects_witness :
  filter_step ([mk_entry 0 2 (Some "S1") "intro"], ∅ ∪ {[ "intro" ]})
              (utt "hello" 1.75 3 "S2")
    = Ok ([mk_entry 0 2 (Some "S1") "intro"], ∅ ∪ {[ "intro" ]}) ∧
  filter_duplicates
    ([utt "intro" 0 2 "S1"] ++ utt "hello" 1.75 3 "S2" :: [utt "bye" 5 6 "S1"])
    = filter_duplicates ([utt "intro" 0 2 "S1"] ++ [utt "bye" 5 6 "S1"]) ∧
  (∀ seen, strip "hello" ∉ seen →
     filter_step ([], seen) (utt "hello" 1.75 3 "S2") =
     Ok ([ {| start_time := 1.75; end_time := 3;
              speaker := getattr_default (Some (Some "S2")) (Some "Unknown Speaker");
              text := strip "hello" |} ],
         seen ∪ {[ strip "hello" ]})).
Proof.
  apply (C3_overlap_rejects [utt "intro" 0 2 "S1"]
           [mk_entry 0 2 (Some "S1") "intro"] (∅ ∪ {[ "intro" ]})
           (mk_entry 0 2 (Some "S1") "intro") (utt "hello" 1.75 3 "S2")
           [utt "bye" 5 6 "S1"] "hello" 1.75 3);
    reflexivity.
Defined.

(** C4: four utterances with speakers S1, S1, S2, S1, none of them
    suppressed, are rendered as three blocks: the first two texts joined by a
    space under S1, then S2's text, then a new S1 block for the last text.
    The texts shown are the trimmed transcripts. *)
Theorem C4_grouping S1 S2 a b c d s1 f1 s2 f2 s3 f3 s4 f4 out words :
  S1 ≠ S2 →
  filter_duplicates
    [utt a s1 f1 S1; utt b s2 f2 S1; utt c s3 f3 S2; utt d s4 f4 S1] = Ok out →
  length out = 4 →
  format_diarized_transcription
    (Some [utt a s1 f1 S1; utt b s2 f2 S1; utt c s3 f3 S2; utt d s4 f4 S1]) words
  = Ok ((S1 +:+ ": " +:+ strip a +:+ " " +:+ strip b)
        +:+ (newline +:+ newline) +:+
        (S2 +:+ ": " +:+ strip c)
        +:+ (newline +:+ newline) +:+
        (S1 +:+ ": " +:+ strip d)).
Proof.
  intros Hne Hout Hlen.
  rewrite format_utterances, Hout.
  apply filter_duplicates_inv in Hout as (kept & Hsub & Hall & _).
  assert (kept = [utt a s1 f1 S1; utt b s2 f2 S1; utt c s3 f3 S2; utt d s4 f4 S1])
    as ->.
  { apply sublist_full; [done|]. apply Forall2_length in Hall. simpl. lia. }
  repeat (apply Forall2_cons_inv_l in Hall as (? & ? & [= <-] & Hall & ->)).
  apply Forall2_nil_inv_l in Hall as ->.
  unfold group_blocks, group_init. cbn [mbind result_bind foldl].
  rewrite group_step_first. cbn [speaker text].
  rewrite group_step_same by done. cbn [speaker text app].
  rewrite group_step_other by (simpl; congruence). cbn [speaker text app].
  rewrite group_step_other by (simpl; congruence).
  reflexivity.
Qed.

Lemma C4_grouping_witness :
  format_diarized_transcription
    (Some [utt "a" 0 1 "S1"; utt "b" 2 3 "S1"; utt "c" 4 5 "S2"; utt "d" 6 7 "S1"])
    (Some [wd "ignored"])
  = Ok (("S1" +:+ ": " +:+ strip "a" +:+ " " +:+ strip "b")
        +:+ (newline +:+ newline) +:+
        ("S2" +:+ ": " +:+ strip "c")
        +:+ (newline +:+ newline) +:+
        ("S1" +:+ ": " +:+ strip "d")).
Proof.
  apply (C4_grouping "S1" "S2" "a" "b" "c" "d" 0 1 2 3 4 5 6 7
           [mk_entry 0 1 (Some "S1") "a"; mk_entry 2 3 (Some "S1") "b";
            mk_entry 4 5 (Some "S2") "c"; mk_entry 6 7 (Some "S1") "d"]).
  - discriminate.
  - vm_compute. reflexivity.
  - reflexivity.
Defined.

(** C5: the entries returned by [filter_duplicates] are the entries of a
    subsequence of the input, one entry per kept utterance and in the input's
    order; each entry carries its utterance's timestamps, trimmed text and
    defaulted speaker. *)
Theorem C5_output_is_subsequence utterances out :
  filter_duplicates utterances = Ok out →
  ∃ kept,
    kept `sublist_of` utterances ∧
    Forall2 (λ u e,
               ∃ tr s f,
                 Utterance.transcript u = Some tr ∧
                 Utterance.start u = Some s ∧
                 Utterance.end_ u = Some f ∧
                 e = {| start_time := s; end_time := f;
                        speaker := getattr_default (Utterance.speaker u)
                                                   (Some "Unknown Speaker");
                        text := strip tr |})
            kept out.
Proof.
  intros (kept & Hsub & Hall & _)%filter_duplicates_inv.
  exists kept. split; [done|].
  eapply Forall2_impl; [exact Hall|]. intros u e He. by apply entry_of_Ok.
Qed.

Lemma C5_output_is_subsequence_witness :
  ∃ kept,
    kept `sublist_of` repeated_after_overlap ∧
    Forall2 (λ u e,
               ∃ tr s f,
                 Utterance.transcript u = Some tr ∧
                 Utterance.start u = Some s ∧
                 Utterance.end_ u = Some f ∧
                 e = {| start_time := s; end_time := f;
                        speaker := getattr_default (Utterance.speaker u)
                                                   (Some "Unknown Speaker");
                        text := strip tr |})
            kept [mk_entry 0 1 (Some "S1") "intro"; mk_entry 3 4 (Some "S2") "hello"].
Proof.
  apply (C5_output_is_subsequence repeated_after_overlap).
  vm_compute. reflexivity.
Defined.

(** C6: without utterances, the formatter renders one block per distinct
    trimmed word text, at the text's first occurrence and under the label
    "Unknown Speaker", and never joins two words into one block; the words
    w1, w1, w2 give the two blocks of w1 and w2. *)
Theorem C6_fallback_one_block_per_text absent texts w1 w2 :
  truthy absent = None →
  strip w1 ≠ strip w2 →
  format_diarized_transcription absent (Some (wd <$> texts)) =
    Ok (join (newline +:+ newline)
             ((λ t, "Unknown Speaker: " +:+ t) <$>
                first_occurrences (strip <$> texts))) ∧
  format_diarized_transcription absent (Some [wd w1; wd w1; wd w2]) =
    Ok (("Unknown Speaker: " +:+ strip w1)
        +:+ (newline +:+ newline) +:+
        ("Unknown Speaker: " +:+ strip w2)).
Proof.
  intros Habs Hne. split; [by apply format_words|].
  etrans; [exact (format_words absent [w1; w1; w2] Habs)|].
  cbn [fmap list_fmap first_occurrences filter list_filter].
  rewrite (decide_True (P := strip w2 ≠ strip w1)) by done.
  cbn [filter list_filter].
  rewrite (decide_False (P := strip w1 ≠ strip w1)) by (intros H; by apply H).
  cbn [filter list_filter].
  rewrite (decide_True (P := strip w2 ≠ strip w1)) by done.
  reflexivity.
Qed.

Lemma C6_fallback_one_block_per_text_witness :
  format_diarized_transcription (Some []) (Some (wd <$> ["to"; "be"; " to "])) =
    Ok (join (newline +:+ newline)
             ((λ t, "Unknown Speaker: " +:+ t) <$>
                first_occurrences (strip <$> ["to"; "be"; " to "]))) ∧
  format_diarized_transcription (Some []) (Some [wd "w1"; wd "w1"; wd "w2"]) =
    Ok (("Unknown Speaker: " +:+ strip "w1")
        +:+ (newline +:+ newline) +:+
        ("Unknown Speaker: " +:+ strip "w2")).
Proof.
  apply (C6_fallback_one_block_per_text (Some []) ["to"; "be"; " to "] "w1" "w2").
  - reflexivity.
  - vm_compute. discriminate.
Defined.

(** C7: on a non-empty [utterances] the result is that of the primary path
    and does not depend on [words]; the fallback loop runs only when
    [utterances] is [None] or empty. *)
Theorem C7_utterances_take_priority utterance rest word more words :
  format_diarized_transcription (Some (utterance :: rest)) words =
    (filtered_utterances ← filter_duplicates (utterance :: rest);
     mret (join (newline +:+ newline) (group_blocks filtered_utterances))) ∧
  format_diarized_transcription (Some (utterance :: rest)) words =
    format_diarized_transcription (Some (utterance :: rest)) None ∧
  format_diarized_transcription None (Some (word :: more)) =
    (st ← word_loop ([], ∅) (word :: more);
     mret (join (newline +:+ newline) st.1)) ∧
  format_diarized_transcription (Some []) (Some (word :: more)) =
    format_diarized_transcription None (Some (word :: more)).
Proof. done. Qed.

(** C8: with neither argument given, or with an empty list for either or
    both, the formatter returns the empty string and raises nothing. *)
Theorem C8_no_input_gives_empty_string :
  format_diarized_transcription None None = Ok "" ∧
  format_diarized_transcription (Some []) None = Ok "" ∧
  format_diarized_transcription None (Some []) = Ok "" ∧
  format_diarized_transcription (Some []) (Some []) = Ok "".
Proof. done. Qed.

(** C9: in the fallback path a word whose text trims to the empty string is
    kept at its first occurrence, as the block "Unknown Speaker: " placed
    after the blocks of the words before it; no later block has an empty
    text. *)
Theorem C9_fallback_keeps_first_empty_text absent pre w post :
  truthy absent = None →
  "" ∉ strip <$> pre →
  strip w = "" →
  format_diarized_transcription absent (Some (wd <$> (pre ++ w :: post))) =
    Ok (join (newline +:+ newline)
          ((render_word <$> first_occurrences (strip <$> pre))
           ++ "Unknown Speaker: "
           :: (render_word <$>
                 filter (λ t, t ∉ strip <$> pre)
                        (filter (λ t, t ≠ "")
                                (first_occurrences (strip <$> post)))))).
Proof.
  intros Habs Hpre Hw. rewrite format_words by done.
  rewrite fmap_app, fmap_cons, first_occurrences_app, fmap_app.
  cbn [first_occurrences]. rewrite Hw.
  rewrite filter_cons_True by done.
  by rewrite fmap_cons.
Qed.

Lemma C9_fallback_keeps_first_empty_text_witness :
  format_diarized_transcription None (Some (wd <$> (["a"] ++ "  " :: [""; "b"]))) =
    Ok (join (newline +:+ newline)
          ((render_word <$> first_occurrences (strip <$> ["a"]))
           ++ "Unknown Speaker: "
           :: (render_word <$>
                 filter (λ t, t ∉ strip <$> ["a"])
                        (filter (λ t, t ≠ "")
                                (first_occurrences (strip <$> [""; "b"])))))).
Proof.
  apply (C9_fallback_keeps_first_empty_text None ["a"] "  " [""; "b"]).
  - reflexivity.
  - simpl. by intros ?%list_elem_of_singleton.
  - reflexivity.
Defined.

(** * Further properties of the code

    ** More on [filter_duplicates] *)

Lemma filter_duplicates_loop utterances out :
  filter_duplicates utterances = Ok out ↔
  filter_loop ([], ∅) utterances = Ok (out, list_to_set (text <$> out)).
Proof.
  unfold filter_duplicates. split.
  - intros ([f s] & Hloop & [= <-])%bind_Ok.
    pose proof Hloop as (_ & added & -> & _ & _ & -> & _)%filter_loop_inv.
    rewrite Hloop. simpl. by rewrite (left_id_L ∅ (∪)).
  - by intros ->.
Qed.

Lemma overlaps_snoc filtered prev start_time :
  overlaps (filtered ++ [prev]) start_time = near start_time (end_time prev).
Proof. unfold overlaps. by rewrite last_snoc. Qed.

Lemma separated_snoc filtered e :
  separated filtered → overlaps filtered (start_time e) = false →
  separated (filtered ++ [e]).
Proof.
  intros Hsep Hov l1 a b l2 Heq.
  destruct l2 as [|x l2 _] using rev_ind.
  - change (l1 ++ [a; b]) with (l1 ++ [a] ++ [b]) in Heq.
    rewrite app_assoc in Heq. apply app_inj_tail in Heq as [-> ->].
    by rewrite overlaps_snoc in Hov.
  - change (l1 ++ a :: b :: l2 ++ [x]) with (l1 ++ (a :: b :: l2) ++ [x]) in Heq.
    rewrite app_assoc in Heq. apply app_inj_tail in Heq as [-> _].
    by apply (Hsep l1 a b l2).
Qed.

Lemma filter_loop_separated utterances filtered seen_texts filtered' seen_texts' :
  filter_loop (filtered, seen_texts) utterances = Ok (filtered', seen_texts') →
  separated filtered → separated filtered'.
Proof.
  revert filtered seen_texts.
  induction utterances as [|u us IH]; intros filtered seen_texts; simpl.
  - by intros [= <- <-].
  - intros ([f1 s1] & Hstep & Hloop)%bind_Ok Hsep.
    apply filter_step_Ok in Hstep as (e & He & [[= -> ->]|([= -> ->] & _ & Hov)]).
    + by apply (IH _ _ Hloop).
    + apply (IH _ _ Hloop). by apply separated_snoc.
Qed.

(** Running the loop on utterances whose entries have new, pairwise distinct
    texts and each start far enough from the end of the entry before: every
    one of them is appended. *)
Lemma filter_loop_keeps_all kept added filtered seen_texts :
  Forall2 (λ u e, entry_of u = Ok e) kept added →
  NoDup (text <$> added) →
  (∀ t, t ∈ text <$> added → t ∉ seen_texts) →
  (∀ l1 e l2, added = l1 ++ e :: l2 →
     overlaps (filtered ++ l1) (start_time e) = false) →
  filter_loop (filtered, seen_texts) kept =
  Ok (filtered ++ added, seen_texts ∪ list_to_set (text <$> added)).
Proof.
  intros Hall. revert filtered seen_texts.
  induction Hall as [|u e kept added He _ IH]; intros filtered seen_texts.
  - intros _ _ _. simpl. rewrite app_nil_r. f_equal. f_equal. set_solver.
  - rewrite fmap_cons. intros [Hnotin Hnd]%NoDup_cons Hfresh Hfar.
    cbn [filter_loop]. rewrite filter_step_unfold, He.
    cbn [mbind result_bind].
    rewrite bool_decide_eq_false_2 by (apply Hfresh; set_solver).
    pose proof (Hfar [] e added eq_refl) as Hov. rewrite app_nil_r in Hov.
    rewrite Hov. cbn [mbind result_bind mret result_ret].
    rewrite IH; [| done | |].
    + rewrite <- app_assoc. simpl. f_equal. f_equal. set_solver.
    + intros t Ht. specialize (Hfresh t). set_solver.
    + intros l1 e' l2 ->. rewrite <- app_assoc. by apply (Hfar (e :: l1) e' l2).
Qed.

(** X1: [filter_duplicates] returns a list exactly when every utterance has
    the [transcript], [start] and [end] attributes. The attributes are read
    before the duplicate test, so an utterance that would have been skipped
    still makes the call raise. *)
Theorem filter_duplicates_returns_iff_readable utterances :
  (∃ out, filter_duplicates utterances = Ok out) ↔ Forall readable utterances.
Proof.
  split.
  - intros [out Hout]. apply Forall_forall. intros u Hin.
    destruct (entry_of u) as [e|e] eqn:He.
    + apply readable_entry_of. by exists e.
    + destruct (filter_duplicates_Raise _ _ _ Hin He) as (attr & _ & Hraise).
      congruence.
  - intros Hall. apply filter_duplicates_total.
    eapply Forall_impl; [exact Hall|]. intros u. by apply readable_entry_of.
Qed.

(** X2: in the list that [filter_duplicates] returns, no entry starts within
    half a second (in absolute value) of the end of the entry before it. *)
Theorem filter_duplicates_separated utterances out :
  filter_duplicates utterances = Ok out → separated out.
Proof.
  intros Hout%filter_duplicates_loop.
  apply (filter_loop_separated _ _ _ _ _ Hout).
  intros l1 a b l2 Heq. by destruct l1.
Qed.

Lemma filter_duplicates_separated_witness :
  separated [mk_entry 0 1 (Some "S1") "intro"; mk_entry 3 4 (Some "S2") "hello"].
Proof.
  apply (filter_duplicates_separated repeated_after_overlap).
  vm_compute. reflexivity.
Defined.

(** X3: an utterance whose trimmed text is the text of an entry already kept
    is skipped without a trace: the result is the one obtained without it,
    whatever its timestamps and speaker are. *)
Theorem filter_duplicates_skips_seen_text pre kept u rest tr :
  filter_duplicates pre = Ok kept →
  readable u →
  Utterance.transcript u = Some tr →
  strip tr ∈ text <$> kept →
  filter_duplicates (pre ++ u :: rest) = filter_duplicates (pre ++ rest).
Proof.
  intros Hpre%filter_duplicates_loop [e He]%readable_entry_of Htr Hin.
  unfold filter_duplicates. rewrite !filter_loop_app, Hpre.
  cbn [mbind result_bind filter_loop]. rewrite filter_step_unfold, He.
  cbn [mbind result_bind].
  apply entry_of_Ok in He as (tr' & s & f & Htr' & _ & _ & ->).
  assert (tr' = tr) as -> by congruence. cbn [text].
  rewrite bool_decide_eq_true_2 by (by apply elem_of_list_to_set).
  done.
Qed.

Lemma filter_duplicates_skips_seen_text_witness :
  filter_duplicates
    ([utt "intro" 0 1 "S1"; utt "hello" 3 4 "S2"]
       ++ utt " intro " 9 10 "S3" :: [utt "bye" 12 13 "S1"])
  = filter_duplicates
      ([utt "intro" 0 1 "S1"; utt "hello" 3 4 "S2"] ++ [utt "bye" 12 13 "S1"]).
Proof.
  apply (filter_duplicates_skips_seen_text
           [utt "intro" 0 1 "S1"; utt "hello" 3 4 "S2"]
           [mk_entry 0 1 (Some "S1") "intro"; mk_entry 3 4 (Some "S2") "hello"]
           (utt " intro " 9 10 "S3") [utt "bye" 12 13 "S1"] " intro ").
  - vm_compute. reflexivity.
  - unfold readable. simpl. eauto.
  - reflexivity.
  - apply list_elem_of_In. simpl. left. reflexivity.
Defined.

(** X4: the first utterance is always kept: its entry is the head of the
    returned list. *)
Theorem filter_duplicates_keeps_first utterance rest out :
  filter_duplicates (utterance :: rest) = Ok out →
  ∃ e tail, entry_of utterance = Ok e ∧ out = e :: tail.
Proof.
  intros Hout. destruct (entry_of utterance) as [e|e] eqn:He.
  - rewrite (filter_duplicates_cons _ _ _ He) in Hout.
    apply bind_Ok in Hout as ([f s] & Hloop & [= <-]).
    apply filter_loop_inv in Hloop as (_ & added & -> & _).
    by exists e, added.
  - unfold filter_duplicates in Hout. cbn [filter_loop] in Hout.
    by rewrite (filter_step_Raise _ _ _ He) in Hout.
Qed.

Lemma filter_duplicates_keeps_first_witness :
  ∃ e tail, entry_of (utt "intro" 0 1 "S1") = Ok e ∧
    [mk_entry 0 1 (Some "S1") "intro"; mk_entry 3 4 (Some "S2") "hello"] = e :: tail.
Proof.
  apply (filter_duplicates_keeps_first (utt "intro" 0 1 "S1")
           [utt "hello" 1.25 2 "S2"; utt "hello" 3 4 "S2"]).
  vm_compute. reflexivity.
Defined.

(** X5: filtering is idempotent on what it keeps: the kept utterances, given
    to [filter_duplicates] again, are all kept and give the same list. *)
Theorem filter_duplicates_idempotent utterances out :
  filter_duplicates utterances = Ok out →
  ∃ kept,
    kept `sublist_of` utterances ∧
    Forall2 (λ u e, entry_of u = Ok e) kept out ∧
    filter_duplicates kept = Ok out.
Proof.
  intros Hout. pose proof (filter_duplicates_separated _ _ Hout) as Hsep.
  apply filter_duplicates_inv in Hout as (kept & Hsub & Hall & Hnd).
  exists kept. split; [done|]. split; [done|].
  unfold filter_duplicates.
  rewrite (filter_loop_keeps_all kept out [] ∅); [done|done|done|set_solver|].
  intros l1 e l2 ->. destruct l1 as [|a l1 _] using rev_ind; [done|].
  rewrite app_nil_l, overlaps_snoc.
  apply (Hsep l1 a e l2). by rewrite <- app_assoc.
Qed.

Lemma filter_duplicates_idempotent_witness :
  ∃ kept,
    kept `sublist_of` repeated_after_overlap ∧
    Forall2 (λ u e, entry_of u = Ok e) kept
            [mk_entry 0 1 (Some "S1") "intro"; mk_entry 3 4 (Some "S2") "hello"] ∧
    filter_duplicates kept =
      Ok [mk_entry 0 1 (Some "S1") "intro"; mk_entry 3 4 (Some "S2") "hello"].
Proof.
  apply (filter_duplicates_idempotent repeated_after_overlap).
  vm_compute. reflexivity.
Defined.

(** X6: utterances appended to the input never change what was kept before
    them: the result on a prefix of the input is a prefix of the result. *)
Theorem filter_duplicates_prefix l1 l2 out1 out :
  filter_duplicates l1 = Ok out1 →
  filter_duplicates (l1 ++ l2) = Ok out →
  out1 `prefix_of` out.
Proof.
  intros H1%filter_duplicates_loop. unfold filter_duplicates.
  rewrite filter_loop_app, H1. cbn [mbind result_bind].
  intros ([f s] & Hloop & [= <-])%bind_Ok.
  apply filter_loop_inv in Hloop as (_ & added & -> & _).
  by exists added.
Qed.

Lemma filter_duplicates_prefix_witness :
  [mk_entry 0 1 (Some "S1") "intro"]
    `prefix_of` [mk_entry 0 1 (Some "S1") "intro"; mk_entry 3 4 (Some "S2") "hello"].
Proof.
  apply (filter_duplicates_prefix
           [utt "intro" 0 1 "S1"; utt "hello" 1.25 2 "S2"]
           [utt "hello" 3 4 "S2"]).
  - vm_compute. reflexivity.
  - vm_compute. reflexivity.
Defined.

Lemma filter_loop_far utterances es filtered seen_texts :
  Forall2 (λ u e, entry_of u = Ok e) utterances es →
  pairwise_far es →
  (∀ a, last filtered = Some a →
     Forall (λ b, near (start_time b) (end_time a) = false) es) →
  ∃ added seen_texts',
    filter_loop (filtered, seen_texts) utterances
      = Ok (filtered ++ added, seen_texts') ∧
    added `sublist_of` es ∧
    text <$> added =
      filter (λ t, t ∉ seen_texts) (first_occurrences (text <$> es)).
Proof.
  intros Hall. revert filtered seen_texts.
  induction Hall as [|u e us es He _ IH]; intros filtered seen_texts.
  - intros _ _. exists [], seen_texts. by rewrite app_nil_r.
  - intros [Hhead Hfar] Hlast.
    cbn [filter_loop]. rewrite filter_step_unfold, He.
    cbn [mbind result_bind]. rewrite fmap_cons. cbn [first_occurrences].
    case_bool_decide as Hseen.
    + destruct (IH filtered seen_texts Hfar) as (added & s' & Hloop & Hsub & Htexts).
      { intros a Ha. specialize (Hlast a Ha). by apply Forall_cons in Hlast as [_ ?]. }
      exists added, s'. split; [done|]. split; [by apply sublist_cons|].
      rewrite filter_cons_False by (intros H; by apply H).
      rewrite list_filter_filter, Htexts.
      apply list_filter_iff. intros t. split; [|naive_solver].
      intros Ht. split; [done|]. by intros ->.
    + assert (overlaps filtered (start_time e) = false) as ->.
      { unfold overlaps. destruct (last filtered) as [a|] eqn:Ha; [|done].
        specialize (Hlast a eq_refl). by apply Forall_cons in Hlast as [? _]. }
      destruct (IH (filtered ++ [e]) (seen_texts ∪ {[ text e ]}) Hfar)
        as (added & s' & Hloop & Hsub & Htexts).
      { intros a. rewrite last_snoc. by intros [= <-]. }
      exists (e :: added), s'. split.
      { cbn [mbind result_bind mret result_ret]. by rewrite Hloop, <- app_assoc. }
      split; [by apply sublist_skip|].
      rewrite filter_cons_True by done.
      rewrite fmap_cons, list_filter_filter, Htexts. f_equal.
      apply list_filter_iff. set_solver.
Qed.

(** X7: when every utterance can be read and none starts within half a
    second of the end of an earlier one, the overlap rule never fires and
    [filter_duplicates] is the exact-text deduplication: the texts it returns
    are the first occurrences of the trimmed texts, in order. *)
Theorem filter_duplicates_first_occurrences utterances es :
  Forall2 (λ u e, entry_of u = Ok e) utterances es →
  pairwise_far es →
  ∃ out,
    filter_duplicates utterances = Ok out ∧
    out `sublist_of` es ∧
    text <$> out = first_occurrences (text <$> es).
Proof.
  intros Hall Hfar.
  destruct (filter_loop_far utterances es [] ∅ Hall Hfar)
    as (added & s' & Hloop & Hsub & Htexts); [done|].
  exists added. unfold filter_duplicates. rewrite Hloop.
  split; [done|]. split; [done|].
  by rewrite Htexts, filter_unseen.
Qed.

Lemma filter_duplicates_first_occurrences_witness :
  ∃ out,
    filter_duplicates [utt "to" 0 1 "S1"; utt "be" 2 3 "S1"; utt " to" 4 5 "S2"]
      = Ok out ∧
    out `sublist_of` [mk_entry 0 1 (Some "S1") "to"; mk_entry 2 3 (Some "S1") "be";
                      mk_entry 4 5 (Some "S2") "to"] ∧
    text <$> out =
      first_occurrences (text <$> [mk_entry 0 1 (Some "S1") "to"; mk_entry 2 3 (Some "S1") "be";
                                   mk_entry 4 5 (Some "S2") "to"]).
Proof.
  apply (filter_duplicates_first_occurrences
           [utt "to" 0 1 "S1"; utt "be" 2 3 "S1"; utt " to" 4 5 "S2"]).
  - repeat constructor.
  - simpl. repeat split; repeat constructor.
Defined.

(** *** Trimmed texts *)

Lemma rstrip_cons c s :
  rstrip (String c s) =
  match rstrip s with
  | "" => if isspace c then "" else String c ""
  | r => String c r
  end.
Proof. done. Qed.

Lemma rstrip_nonspace c s :
  isspace c = false → rstrip (String c s) = String c (rstrip s).
Proof. intros Hc. rewrite rstrip_cons, Hc. by destruct (rstrip s). Qed.

Lemma rstrip_idemp s : rstrip (rstrip s) = rstrip s.
Proof.
  induction s as [|c s IH]; [done|].
  rewrite rstrip_cons. destruct (rstrip s) as [|d r] eqn:Hr.
  - destruct (isspace c) eqn:Hc; [done|]. by rewrite rstrip_nonspace.
  - by rewrite rstrip_cons, IH.
Qed.

Lemma lstrip_head s :
  lstrip s = "" ∨ ∃ c r, lstrip s = String c r ∧ isspace c = false.
Proof.
  induction s as [|c s IH]; [by left|]. simpl.
  destruct (isspace c) eqn:Hc; [done|]. right. by exists c, s.
Qed.

Lemma strip_idemp s : strip (strip s) = strip s.
Proof.
  unfold strip. destruct (lstrip_head s) as [->|(c & r & -> & Hc)]; [done|].
  rewrite (rstrip_nonspace _ _ Hc). cbn [lstrip]. rewrite Hc.
  by rewrite (rstrip_nonspace _ _ Hc), rstrip_idemp.
Qed.

(** X8: every text that [filter_duplicates] returns is trimmed: stripping it
    again changes nothing. *)
Theorem filter_duplicates_texts_trimmed utterances out :
  filter_duplicates utterances = Ok out →
  Forall (λ e, strip (text e) = text e) out.
Proof.
  intros (kept & _ & Hall & _)%filter_duplicates_inv.
  induction Hall as [|u e kept out He _ IH]; constructor; [|done].
  apply entry_of_Ok in He as (tr & s & f & _ & _ & _ & ->).
  apply strip_idemp.
Qed.

Lemma filter_duplicates_texts_trimmed_witness :
  Forall (λ e, strip (text e) = text e)
         [mk_entry 0 1 (Some "S1") "intro"; mk_entry 3 4 (Some "S2") "hello"].
Proof.
  apply (filter_duplicates_texts_trimmed repeated_after_overlap).
  vm_compute. reflexivity.
Defined.

(** ** More on [format_diarized_transcription]: the grouping loop *)

Lemma foldl_group_same cs l blocks texts :
  Forall (λ e, speaker e = cs) l →
  foldl group_step (mk_group blocks cs texts) l =
  mk_group blocks cs (texts ++ (text <$> l)).
Proof.
  intros Hall. revert texts.
  induction Hall as [|e l He _ IH]; intros texts; simpl.
  - by rewrite app_nil_r.
  - rewrite (group_step_same _ _ _ _ He), IH. by rewrite <- app_assoc.
Qed.

Lemma flush_prefix pre blocks cs texts :
  flush (mk_group (pre ++ blocks) cs texts) = pre ++ flush (mk_group blocks cs texts).
Proof. unfold flush. simpl. destruct cs; [by rewrite app_assoc | done]. Qed.

(** Blocks already flushed are carried along untouched. *)
Lemma foldl_group_prefix pre l blocks cs texts :
  flush (foldl group_step (mk_group (pre ++ blocks) cs texts) l) =
  pre ++ flush (foldl group_step (mk_group blocks cs texts) l).
Proof.
  revert blocks cs texts.
  induction l as [|e l IH]; intros blocks cs texts; cbn [foldl].
  - apply flush_prefix.
  - destruct (decide (speaker e = cs)) as [He|He].
    + rewrite !(group_step_same _ _ _ _ He). apply IH.
    + rewrite !(group_step_change _ _ _ _ He), flush_prefix. apply IH.
Qed.

(** The number of blocks, counting the one being built, never decreases. *)
Lemma flush_length_foldl g l :
  length (flush g) ≤ length (flush (foldl group_step g l)).
Proof.
  revert g. induction l as [|e l IH]; intros g; cbn [foldl]; [done|].
  etrans; [|apply IH]. destruct g as [blocks cs texts].
  destruct (decide (speaker e = cs)) as [He|He].
  - rewrite (group_step_same _ _ _ _ He). unfold flush. simpl.
    destruct cs; by rewrite ?length_app.
  - rewrite (group_step_change _ _ _ _ He). unfold flush at 2. simpl.
    destruct (speaker e); rewrite ?length_app; lia.
Qed.

Lemma flush_nonempty_blocks g :
  Forall (λ b, b ≠ "") (speaker_transcriptions g) → Forall (λ b, b ≠ "") (flush g).
Proof.
  intros Hall. unfold flush. destruct (current_speaker g); [|done].
  apply Forall_app. split; [done|]. constructor; [|done].
  apply render_block_nonempty.
Qed.

Lemma foldl_group_nonempty_blocks g l :
  Forall (λ b, b ≠ "") (speaker_transcriptions g) →
  Forall (λ b, b ≠ "") (flush (foldl group_step g l)).
Proof.
  revert g. induction l as [|e l IH]; intros g Hall; cbn [foldl].
  - by apply flush_nonempty_blocks.
  - apply IH. unfold group_step. case_bool_decide; [done|].
    by apply flush_nonempty_blocks.
Qed.

(** Entries whose speaker is [None] never open a block. *)
Lemma group_blocks_no_speaker l :
  Forall (λ e, speaker e = None) l → group_blocks l = [].
Proof.
  intros Hall. unfold group_blocks, group_init.
  by rewrite (foldl_group_same None _ _ _ Hall).
Qed.

(** One entry with a speaker label is enough for a block to be rendered. *)
Lemma group_blocks_some_speaker l :
  ¬ Forall (λ e, speaker e = None) l → group_blocks l ≠ [].
Proof.
  intros (e & Hin & He)%not_Forall_Exists%Exists_exists; [|apply _].
  simpl in He.
  apply list_elem_of_split in Hin as (l1 & l2 & ->).
  unfold group_blocks. rewrite foldl_app. cbn [foldl].
  pose proof (flush_length_foldl
                (group_step (foldl group_step group_init l1) e) l2) as Hlen.
  intros Hnil. rewrite Hnil in Hlen.
  pose proof (group_step_speaker (foldl group_step group_init l1) e) as Hs.
  unfold flush at 1 in Hlen. rewrite Hs in Hlen.
  destruct (speaker e); [|done].
  rewrite length_app in Hlen. simpl in Hlen. lia.
Qed.

(** The rendering of the kept entries is the empty string exactly when none
    of them has a speaker label. *)
Lemma join_group_blocks_empty out :
  join (newline +:+ newline) (group_blocks out) = "" ↔
  Forall (λ e, speaker e = None) out.
Proof.
  split.
  - intros Hjoin. destruct (decide (Forall (λ e, speaker e = None) out)) as [|Hn];
      [done|exfalso].
    apply group_blocks_some_speaker in Hn.
    pose proof (foldl_group_nonempty_blocks group_init out (Forall_nil_2 _)) as Hall.
    fold (group_blocks out) in Hall.
    destruct (group_blocks out) as [|b blocks]; [done|].
    apply Forall_cons in Hall as [Hb _].
    by apply (join_nonempty (newline +:+ newline) (b :: blocks) b);
      [apply list_elem_of_here|..].
  - intros Hall. by rewrite (group_blocks_no_speaker _ Hall).
Qed.

(** X9: a non-empty run of entries with one speaker label is rendered as a
    single block: the speaker, a colon and the texts joined by single spaces
    in their order. *)
Theorem group_blocks_single_speaker sp e l :
  Forall (λ e', speaker e' = Some sp) (e :: l) →
  group_blocks (e :: l) = [render_block sp (text <$> e :: l)].
Proof.
  intros [He Hl]%Forall_cons. unfold group_blocks, group_init. cbn [foldl].
  rewrite group_step_first, He, (foldl_group_same _ _ _ _ Hl).
  reflexivity.
Qed.

Lemma group_blocks_single_speaker_witness :
  group_blocks (mk_entry 0 1 (Some "S1") "a"
                  :: [mk_entry 2 3 (Some "S1") "b"; mk_entry 4 5 (Some "S1") "c"])
  = [render_block "S1"
       (text <$> mk_entry 0 1 (Some "S1") "a"
          :: [mk_entry 2 3 (Some "S1") "b"; mk_entry 4 5 (Some "S1") "c"])].
Proof.
  apply (group_blocks_single_speaker "S1").
  repeat constructor.
Defined.

(** X10: a change of speaker between two consecutive entries closes the
    current block: the blocks of the whole list are the blocks of the part up
    to the change followed by the blocks of the part after it. A speaker who
    comes back later therefore never rejoins an earlier block. *)
Theorem group_blocks_speaker_change l1 a b l2 :
  speaker a ≠ speaker b →
  group_blocks (l1 ++ a :: b :: l2) =
  group_blocks (l1 ++ [a]) ++ group_blocks (b :: l2).
Proof.
  intros Hne. unfold group_blocks.
  change (l1 ++ a :: b :: l2) with (l1 ++ [a] ++ b :: l2).
  rewrite app_assoc, foldl_app. cbn [foldl].
  destruct (foldl group_step group_init (l1 ++ [a])) as [blocks cs texts] eqn:Hg.
  assert (cs = speaker a) as ->.
  { rewrite foldl_snoc in Hg.
    pose proof (group_step_speaker (foldl group_step group_init l1) a) as Hs.
    by rewrite Hg in Hs. }
  rewrite group_step_change by congruence.
  unfold group_init. rewrite group_step_first.
  pose proof (foldl_group_prefix (flush (mk_group blocks (speaker a) texts))
                l2 [] (speaker b) [text b]) as Hpre.
  by rewrite app_nil_r in Hpre.
Qed.

Lemma group_blocks_speaker_change_witness :
  group_blocks ([mk_entry 0 1 (Some "S1") "a"] ++ mk_entry 2 3 (Some "S1") "b"
                  :: mk_entry 4 5 (Some "S2") "c" :: [mk_entry 6 7 (Some "S1") "d"])
  = group_blocks ([mk_entry 0 1 (Some "S1") "a"] ++ [mk_entry 2 3 (Some "S1") "b"])
    ++ group_blocks (mk_entry 4 5 (Some "S2") "c" :: [mk_entry 6 7 (Some "S1") "d"]).
Proof.
  apply group_blocks_speaker_change. discriminate.
Defined.

(** While no speaker is current, the texts collected so far have no effect on
    the blocks. *)
Lemma foldl_group_unlabelled_texts l blocks texts texts' :
  flush (foldl group_step (mk_group blocks None texts) l) =
  flush (foldl group_step (mk_group blocks None texts') l).
Proof.
  revert texts texts'. induction l as [|e l IH]; intros texts texts'; [done|].
  cbn [foldl]. destruct (decide (speaker e = None)) as [He|He].
  - rewrite !(group_step_same _ _ _ _ He). apply IH.
  - by rewrite !(group_step_change _ _ _ _ He).
Qed.

(** X15: kept entries without a speaker label at the head of the list leave
    no trace in the output: their texts are collected but never rendered,
    and the blocks are those of the rest of the list. *)
Theorem group_blocks_drops_leading_unlabelled unlabelled l :
  Forall (λ e, speaker e = None) unlabelled →
  group_blocks (unlabelled ++ l) = group_blocks l.
Proof.
  intros Hall. unfold group_blocks, group_init.
  rewrite foldl_app, (foldl_group_same None _ _ _ Hall).
  apply foldl_group_unlabelled_texts.
Qed.

Lemma group_blocks_drops_leading_unlabelled_witness :
  group_blocks ([mk_entry 0 1 None "lost"; mk_entry 2 3 None "too"]
                  ++ [mk_entry 4 5 (Some "S1") "kept"])
  = group_blocks [mk_entry 4 5 (Some "S1") "kept"].
Proof.
  apply group_blocks_drops_leading_unlabelled. repeat constructor.
Defined.

(** ** More on [format_diarized_transcription]: the fallback path *)

Lemma word_loop_Raise words w st :
  w ∈ words → Word.punctuated_word w = None →
  word_loop st words = Raise (AttributeError "punctuated_word").
Proof.
  intros Hin Hw. revert st.
  induction words as [|w0 words IH]; intros [blocks seen]; [by apply elem_of_nil in Hin|].
  cbn [word_loop]. unfold word_step.
  destruct (Word.punctuated_word w0) as [t|] eqn:Hw0; [|done].
  apply elem_of_cons in Hin as [->|Hin]; [congruence|].
  cbn [getattr mbind result_bind]. case_bool_decide; by apply IH.
Qed.

Lemma word_loop_prefix words blocks seen blocks' seen' :
  word_loop (blocks, seen) words = Ok (blocks', seen') → blocks `prefix_of` blocks'.
Proof.
  revert blocks seen. induction words as [|w words IH]; intros blocks seen.
  - by intros [= <- <-].
  - cbn [word_loop]. intros ([b1 s1] & Hstep & Hloop)%bind_Ok.
    apply IH in Hloop. unfold word_step in Hstep.
    destruct (Word.punctuated_word w) as [t|]; [|done].
    cbn [getattr mbind result_bind] in Hstep.
    case_bool_decide; injection Hstep as <- <-; [done|].
    etrans; [|exact Hloop]. by apply prefix_app_r.
Qed.

(** X11: in the fallback path a word without a [punctuated_word] attribute
    makes the formatter raise [AttributeError] for that attribute, wherever
    the word stands in the list. *)
Theorem format_words_missing_text absent words w :
  truthy absent = None →
  w ∈ words →
  Word.punctuated_word w = None →
  format_diarized_transcription absent (Some words)
  = Raise (AttributeError "punctuated_word").
Proof.
  intros Habs Hin Hw. unfold format_diarized_transcription. rewrite Habs.
  destruct words as [|w0 words]; [by apply elem_of_nil in Hin|].
  cbn [truthy]. by rewrite (word_loop_Raise _ w _ Hin Hw).
Qed.

Lemma format_words_missing_text_witness :
  format_diarized_transcription None (Some [wd "a"; wd "a"; Word.mk None; wd "b"])
  = Raise (AttributeError "punctuated_word").
Proof.
  apply (format_words_missing_text None _ (Word.mk None)).
  - reflexivity.
  - apply list_elem_of_In. simpl. right. right. left. reflexivity.
  - reflexivity.
Defined.

(** In the fallback path a non-empty list of words never gives the empty
    string: the first word always yields a block. *)
Lemma format_words_nonempty absent w rest s :
  truthy absent = None →
  format_diarized_transcription absent (Some (w :: rest)) = Ok s → s ≠ "".
Proof.
  intros Habs. unfold format_diarized_transcription. rewrite Habs. cbn [truthy].
  intros ([blocks seen] & Hloop & [= <-])%bind_Ok.
  cbn [word_loop] in Hloop.
  apply bind_Ok in Hloop as ([b1 s1] & Hstep & Hloop).
  apply word_loop_prefix in Hloop as [more ->].
  unfold word_step in Hstep.
  destruct (Word.punctuated_word w) as [t|]; [|done].
  cbn [getattr mbind result_bind] in Hstep.
  rewrite bool_decide_eq_false_2 in Hstep by set_solver.
  injection Hstep as <- <-. cbn [fst app].
  apply (join_nonempty _ _ (render_word (strip t))); [|done].
  apply elem_of_cons. by left.
Qed.

(** X12: when [format_diarized_transcription] returns on a non-empty list of
    utterances or, without utterances, of words, the string is empty in one
    case only: the utterances path was taken and none of the kept entries
    has a speaker label (every [speaker] attribute is present with the value
    [None]). Such entries compare equal to the initial [current_speaker] and
    are never flushed. *)
Theorem format_empty_output utterances words s :
  truthy utterances ≠ None ∨ truthy words ≠ None →
  format_diarized_transcription utterances words = Ok s →
  (s = "" ↔
   ∃ us out, truthy utterances = Some us ∧ filter_duplicates us = Ok out ∧
             Forall (λ e, speaker e = None) out).
Proof.
  intros Hin Hs. destruct (truthy utterances) as [us|] eqn:Hus.
  - assert (∃ u rest, us = u :: rest ∧ utterances = Some (u :: rest))
      as (u & rest & -> & ->).
    { destruct utterances as [[|u rest]|]; simplify_eq/=. by eauto. }
    rewrite format_utterances in Hs.
    apply bind_Ok in Hs as (out & Hout & [= <-]).
    rewrite join_group_blocks_empty. split.
    + intros Hall. by exists (u :: rest), out.
    + intros (us' & out' & [= <-] & Hout' & Hall). congruence.
  - destruct Hin as [?|Hws]; [done|].
    assert (∃ w rest, words = Some (w :: rest)) as (w & rest & ->).
    { destruct words as [[|w rest]|]; simplify_eq/=. by eauto. }
    apply format_words_nonempty in Hs; [|done].
    split; [done|]. by intros (us' & out' & [=] & _).
Qed.

Lemma format_empty_output_witness :
  "" = "" ↔
  ∃ us out,
    truthy (Some [unlabelled "hi" 0 1; unlabelled "yo" 2 3]) = Some us ∧
    filter_duplicates us = Ok out ∧
    Forall (λ e, speaker e = None) out.
Proof.
  apply (format_empty_output (Some [unlabelled "hi" 0 1; unlabelled "yo" 2 3])
           (Some [wd "w"])).
  - left. discriminate.
  - vm_compute. reflexivity.
Defined.

(** ** The caller: [main] *)

Lemma before_first_dot_split name :
  name = before_first_dot name ∨
  ∃ rest, name = before_first_dot name +:+ String dot rest.
Proof.
  induction name as [|c name IH]; [by left|]. cbn [before_first_dot].
  destruct (Ascii.eqb c dot) eqn:Hc.
  - apply Ascii.eqb_eq in Hc as ->. right. by exists name.
  - destruct IH as [IH|[rest IH]].
    + left. by rewrite <- IH.
    + right. exists rest.
      change (String c name = String c (before_first_dot name +:+ String dot rest)).
      by f_equal.
Qed.

Lemma before_first_dot_no_dot name a b :
  before_first_dot name ≠ a +:+ String dot b.
Proof.
  revert a. induction name as [|c name IH]; intros a; cbn [before_first_dot].
  - by destruct a.
  - destruct (Ascii.eqb c dot) eqn:Hc; [by destruct a|].
    destruct a as [|a0 a].
    + change ("" +:+ String dot b) with (String dot b).
      intros [= -> _]. by rewrite Ascii.eqb_refl in Hc.
    + change (String a0 a +:+ String dot b) with (String a0 (a +:+ String dot b)).
      intros [= _ H]. by apply (IH a).
Qed.

(** X13: the file name that [main] gives to the document is the part of the
    uploaded file's name before its first dot, followed by
    "_transcription.docx": that part contains no dot, and the uploaded name
    is either that part alone or that part, a dot and a remainder that is
    dropped. *)
Theorem main_document_filename uploaded_name results_utterances alternative
    formatted_transcription output_filename :
  main_document uploaded_name results_utterances alternative
    = Ok (formatted_transcription, output_filename) →
  ∃ stem,
    output_filename = stem +:+ "_transcription.docx" ∧
    (uploaded_name = stem ∨ ∃ rest, uploaded_name = stem +:+ "." +:+ rest) ∧
    (∀ a b, stem ≠ a +:+ "." +:+ b).
Proof.
  unfold main_document.
  intros (transcript & _ & (body & _ & [= _ <-])%bind_Ok)%bind_Ok.
  exists (before_first_dot uploaded_name). split; [done|]. split.
  - apply before_first_dot_split.
  - intros a b. apply before_first_dot_no_dot.
Qed.

Lemma main_document_filename_witness :
  ∃ stem,
    "team_transcription.docx" = stem +:+ "_transcription.docx" ∧
    ("team.meeting.mp3" = stem ∨ ∃ rest, "team.meeting.mp3" = stem +:+ "." +:+ rest) ∧
    (∀ a b, stem ≠ a +:+ "." +:+ b).
Proof.
  apply (main_document_filename "team.meeting.mp3" None
           (Alternative.mk (Some "hello") None) "hello").
  reflexivity.
Defined.

(** X14: with neither utterances nor words in the response, the text that
    [main] writes into the document is the transcript as it is. The text is
    empty in two cases only: no utterances, no words and an empty transcript;
    or utterances none of whose kept entries has a speaker label. *)
Theorem main_document_empty_text uploaded_name results_utterances alternative
    formatted_transcription output_filename :
  main_document uploaded_name results_utterances alternative
    = Ok (formatted_transcription, output_filename) →
  (getattr_default results_utterances [] = [] →
   getattr_default (Alternative.words alternative) [] = [] →
   Alternative.transcript alternative = Some formatted_transcription) ∧
  (formatted_transcription = "" ↔
   (getattr_default results_utterances [] = [] ∧
    getattr_default (Alternative.words alternative) [] = [] ∧
    Alternative.transcript alternative = Some "") ∨
   (getattr_default results_utterances [] ≠ [] ∧
    ∃ out, filter_duplicates (getattr_default results_utterances []) = Ok out ∧
           Forall (λ e, speaker e = None) out)).
Proof.
  unfold main_document.
  intros (transcript & Htr & (body & Hbody & [= <- _])%bind_Ok)%bind_Ok.
  assert (Alternative.transcript alternative = Some transcript) as Htr'.
  { by destruct (Alternative.transcript alternative); simplify_eq/=. }
  destruct (getattr_default results_utterances []) as [|u us] eqn:Hus.
  - destruct (getattr_default (Alternative.words alternative) []) as [|w ws] eqn:Hws.
    + injection Hbody as <-. split; [done|]. split.
      * intros ->. by left.
      * intros [(_ & _ & ?)|[? _]]; [congruence|done].
    + split; [done|]. apply format_words_nonempty in Hbody; [|done].
      split; [done|]. by intros [(_ & ? & _)|[? _]].
  - split; [done|]. rewrite format_utterances in Hbody.
    apply bind_Ok in Hbody as (out & Hout & [= <-]).
    rewrite join_group_blocks_empty. split.
    + intros Hall. right. split; [done|]. by exists out.
    + intros [(? & _)|(_ & out' & Hout' & Hall)]; [done|congruence].
Qed.

Lemma main_document_empty_text_witness :
  (getattr_default (Some [unlabelled "hi" 0 1]) [] = [] →
   getattr_default (Alternative.words (Alternative.mk (Some "hi") None)) [] = [] →
   Alternative.transcript (Alternative.mk (Some "hi") None) = Some "") ∧
  ("" = "" ↔
   (getattr_default (Some [unlabelled "hi" 0 1]) [] = [] ∧
    getattr_default (Alternative.words (Alternative.mk (Some "hi") None)) [] = [] ∧
    Alternative.transcript (Alternative.mk (Some "hi") None) = Some "") ∨
   (getattr_default (Some [unlabelled "hi" 0 1]) [] ≠ [] ∧
    ∃ out, filter_duplicates (getattr_default (Some [unlabelled "hi" 0 1]) [])
             = Ok out ∧
           Forall (λ e, speaker e = None) out)).
Proof.
  apply (main_document_empty_text "a.wav" (Some [unlabelled "hi" 0 1])
           (Alternative.mk (Some "hi") None) "" "a_transcription.docx").
  vm_compute. reflexivity.
Defined.
